(** * sud: single use dialers

    A shallow embedding of the Go package [sud] (file [sud.go]) and the
    proofs of its contract: the first dial on a [SingleUseDialer] hands
    out the injected connection, every later dial fails with
    [ErrNoConnReuse], sequentially and under concurrent callers. *)

From Stdlib Require Import ZArith Lia.
From stdpp Require Import base option list strings relations.

Open Scope string_scope.
Open Scope nat_scope.

(** ** The pieces of Go's standard library that [sud.go] uses *)

(** Package [net]. A [net.Conn] is an interface value: the nil interface,
    or a connection object, which is told apart from every other one by
    the address it lives at. Only the nil interface passes [c == nil]. *)
Module net.
Inductive Conn : Type :=
| Nil
| Obj (addr : N).

(** The test [c == nil] on an interface value. *)
Definition is_nil (c : Conn) : bool :=
  match c with
  | Nil => true
  | Obj _ => false
  end.
End net.

(** The builtin interface [error], with the two implementations that
    matter here: [*errors.errorString], made by [errors.New], and
    [*fmt.wrapError], the layer [fmt.Errorf] puts around the operand of
    a [%w] verb. Both are pointers, so each value carries the address it
    was allocated at. *)
Inductive error : Type :=
| nil_error
| errorString (addr : N) (s : string)
| wrapError (addr : N) (msg : string) (err : error).

(** The comparison [e1 == e2] of two interface values: equal when both are
    nil, or when they have the same dynamic type and, both being pointers,
    the same address. *)
Definition error_eqb (e1 e2 : error) : bool :=
  match e1, e2 with
  | nil_error, nil_error => true
  | errorString a1 _, errorString a2 _ => N.eqb a1 a2
  | wrapError a1 _ _, wrapError a2 _ _ => N.eqb a1 a2
  | _, _ => false
  end.

(** The method [Error() string]; calling it on the nil interface panics,
    which is [None] here. *)
Definition Error (e : error) : option string :=
  match e with
  | nil_error => None
  | errorString _ s => Some s
  | wrapError _ msg _ => Some msg
  end.

Module errors.
(** [errors.New(text)], allocated at [addr]. *)
Definition New (addr : N) (text : string) : error := errorString addr text.

(** The loop of the unexported [errors.is]: compare, else unwrap and go
    on; nothing in this model has an [Is] method or unwraps to a list. *)
Fixpoint is_ (err target : error) (targetComparable : bool) : bool :=
  if targetComparable && error_eqb err target then true
  else
    match err with
    | wrapError _ _ inner =>
        match inner with
        | nil_error => false
        | _ => is_ inner target targetComparable
        end
    | _ => false
    end.

(** [errors.Is(err, target)]. Pointer types are comparable. *)
Definition Is (err target : error) : bool :=
  match err, target with
  | nil_error, _ | _, nil_error => error_eqb err target
  | _, _ => is_ err target true
  end.
End errors.

Module sync.
(** A [sync.Mutex]; its zero value is unlocked. *)
Inductive Mutex : Type :=
| Unlocked
| Locked.

(** [m.Lock()] returns once the mutex is free, and then holds it; on a
    held mutex it does not return ([None]). *)
Definition Lock (m : Mutex) : option Mutex :=
  match m with
  | Unlocked => Some Locked
  | Locked => None
  end.

(** [m.Unlock()]; on an unlocked mutex it is a fatal error ([None]). *)
Definition Unlock (m : Mutex) : option Mutex :=
  match m with
  | Locked => Some Unlocked
  | Unlocked => None
  end.
End sync.

Module context.
(** A [context.Context], as far as a callee can observe it: what
    [ctx.Err()] would say. *)
Inductive Context : Type :=
| Background
| Canceled
| DeadlineExceeded.
End context.

Module tls.
Record Config : Type := {
  ServerName : string;
  InsecureSkipVerify : bool;
  NextProtos : list string
}.
End tls.

(** ** The package *)

(** [type SingleUseDialer struct { mu sync.Mutex; conn net.Conn }] *)
Record SingleUseDialer : Type := {
  mu : sync.Mutex;
  conn : net.Conn
}.

(** [NewSingleUseDialer] leaves [mu] at its zero value. *)
Definition NewSingleUseDialer (conn : net.Conn) : SingleUseDialer :=
  {| mu := sync.Unlocked; conn := conn |}.

(** The address the package-level [ErrNoConnReuse] is allocated at when
    the package is initialised. *)
Definition ErrNoConnReuse_addr : N := 1%N.

Definition ErrNoConnReuse : error :=
  errors.New ErrNoConnReuse_addr "cannot reuse connection".

(** *** Methods, for one caller at a time

    A method runs on the dialer its receiver points to and either returns
    a value and leaves a dialer behind, or does not return. *)
Definition M (A : Type) : Type := SingleUseDialer → option (A * SingleUseDialer).

Definition ret {A} (a : A) : M A := λ sud, Some (a, sud).

Definition bind {A B} (m : M A) (k : A → M B) : M B :=
  λ sud,
    match m sud with
    | Some (a, sud') => k a sud'
    | None => None
    end.

Declare Scope sud_scope.
Delimit Scope sud_scope with sud.
Notation "'let*' x := m 'in' k" := (bind m (λ x, k))
  (at level 10, x name, m at level 100, k at level 200) : sud_scope.
Notation "m >> k" := (bind m (λ _, k))
  (at level 100, k at level 200, right associativity) : sud_scope.

Definition mu_Lock : M unit :=
  λ sud, m ← sync.Lock (mu sud); Some (tt, {| mu := m; conn := conn sud |}).

Definition mu_Unlock : M unit :=
  λ sud, m ← sync.Unlock (mu sud); Some (tt, {| mu := m; conn := conn sud |}).

Definition get_conn : M net.Conn := λ sud, Some (conn sud, sud).

Definition set_conn (c : net.Conn) : M unit :=
  λ sud, Some (tt, {| mu := mu sud; conn := c |}).

(** [defer d; body]: [d] runs when [body] has set the results. *)
Definition defer {A} (d : M unit) (body : M A) : M A :=
  (let* r := body in d >> ret r)%sud.

Definition DialContext (ctx : context.Context) (network addr : string)
  : M (net.Conn * error) :=
  (mu_Lock >>
   defer mu_Unlock
     (let* c := get_conn in
      if net.is_nil c then ret (net.Nil, ErrNoConnReuse)
      else set_conn net.Nil >> ret (c, nil_error)))%sud.

Definition DialTLSContext (ctx : context.Context) (network address : string)
  (cfg : option tls.Config) : M (net.Conn * error) :=
  DialContext ctx network address.

(** *** Sequences of dials on one dialer *)

(** One dial, through either method, with its arguments. *)
Inductive call : Type :=
| Dial (ctx : context.Context) (network addr : string)
| DialTLS (ctx : context.Context) (network address : string)
    (cfg : option tls.Config).

Definition take (k : call) : M (net.Conn * error) :=
  match k with
  | Dial ctx network addr => DialContext ctx network addr
  | DialTLS ctx network address cfg => DialTLSContext ctx network address cfg
  end.

(** The calls of [ks] one after the other, with what each returned. *)
Fixpoint take_all (ks : list call) : M (list (net.Conn * error)) :=
  match ks with
  | [] => ret []
  | k :: ks' =>
      (let* r := take k in
       let* rs := take_all ks' in
       ret (r :: rs))%sud
  end.

(** The same dial through the plain method. *)
Definition plain (k : call) : call :=
  match k with
  | Dial ctx network addr => Dial ctx network addr
  | DialTLS ctx network address _ => Dial ctx network address
  end.

(** A result that hands a connection to its caller. *)
Definition handed_out (r : net.Conn * error) : bool := negb (net.is_nil r.1).

(** A chain of [%w] layers around an error, innermost first. *)
Definition wrap_all (layers : list (N * string)) (e : error) : error :=
  foldl (λ inner l, wrapError l.1 l.2 inner) e layers.

(** *** Concurrent callers

    Each goroutine inside [DialContext] is at one of the points below; the
    dialer is shared, and a scheduler picks which goroutine moves next.
    Every access to [sud.conn] is made with [sud.mu] held, so the calls
    are free of data races and the interleavings of these moves are all
    there is to observe. *)
Inductive pc : Type :=
| AtLock                               (* before [sud.mu.Lock()] *)
| AtCheck                              (* holds [mu]; before [if sud.conn == nil] *)
| AtSwap                               (* holds [mu]; before [conn, sud.conn = sud.conn, nil] *)
| AtUnlock (r : net.Conn * error)      (* results set; the deferred [sud.mu.Unlock()] to run *)
| Returned (r : net.Conn * error).

(** One move of a goroutine; [None] when it cannot move: blocked in
    [Lock], or already back from the call. *)
Definition thread_step (p : pc) (sud : SingleUseDialer)
  : option (pc * SingleUseDialer) :=
  match p with
  | AtLock =>
      m ← sync.Lock (mu sud);
      Some (AtCheck, {| mu := m; conn := conn sud |})
  | AtCheck =>
      if net.is_nil (conn sud)
      then Some (AtUnlock (net.Nil, ErrNoConnReuse), sud)
      else Some (AtSwap, sud)
  | AtSwap =>
      Some (AtUnlock (conn sud, nil_error), {| mu := mu sud; conn := net.Nil |})
  | AtUnlock r =>
      m ← sync.Unlock (mu sud);
      Some (Returned r, {| mu := m; conn := conn sud |})
  | Returned _ => None
  end.

(** One goroutine on its own, for at most [fuel] moves. *)
Fixpoint thread_run (fuel : nat) (p : pc) (sud : SingleUseDialer)
  : option ((net.Conn * error) * SingleUseDialer) :=
  match p, fuel with
  | Returned r, _ => Some (r, sud)
  | _, 0 => None
  | _, S fuel' =>
      '(p', sud') ← thread_step p sud;
      thread_run fuel' p' sud'
  end.

(** The shared dialer and the goroutines calling [DialContext] on it. *)
Record system : Type := {
  dialer : SingleUseDialer;
  calls : list pc
}.

(** [ncalls] goroutines about to call [DialContext] on a fresh dialer. *)
Definition start (ncalls : nat) (c : net.Conn) : system :=
  {| dialer := NewSingleUseDialer c; calls := replicate ncalls AtLock |}.

(** Goroutine [i] moves. *)
Definition step (i : nat) (σ : system) : option system :=
  p ← calls σ !! i;
  '(p', sud') ← thread_step p (dialer σ);
  Some {| dialer := sud'; calls := <[i:=p']> (calls σ) |}.

Definition sched_step (σ σ' : system) : Prop := ∃ i, step i σ = Some σ'.

(** The scheduler follows [sched]; a pick that cannot move is skipped. *)
Definition run_schedule (sched : list nat) (σ : system) : system :=
  foldl (λ σ i, default σ (step i σ)) σ sched.

Definition returned (p : pc) : option (net.Conn * error) :=
  match p with
  | Returned r => Some r
  | _ => None
  end.

(** What the calls returned, once all of them have. *)
Definition results (σ : system) : option (list (net.Conn * error)) :=
  mapM returned (calls σ).

(** Exactly one of the [ncalls] results is [c] with no error, the others
    are nil with [ErrNoConnReuse]. *)
Definition exactly_one_wins (c : net.Conn) (ncalls : nat)
  (rs : list (net.Conn * error)) : Prop :=
  length rs = ncalls ∧
  ∃ i, rs !! i = Some (c, nil_error) ∧
       ∀ j, j ≠ i → j < ncalls → rs !! j = Some (net.Nil, ErrNoConnReuse).

(** What is promised of [ncalls] concurrent dials on a dialer seeded with
    [c], in the state [σ] reached after [n] moves: the moves are bounded;
    either some goroutine can move or all calls are back, exactly one of
    them with [c]; the calls can all be brought back from [σ]; and at no
    time has a call returned anything but [c] or the sentinel, nor have
    two calls returned [c]. *)
Definition concurrent_outcome (c : net.Conn) (ncalls n : nat) (σ : system)
  : Prop :=
  n ≤ 4 * ncalls ∧
  ((∃ i σ', step i σ = Some σ') ∨
   (∃ rs, results σ = Some rs ∧ exactly_one_wins c ncalls rs)) ∧
  (∃ m σ', nsteps sched_step m σ σ' ∧ is_Some (results σ')) ∧
  (∀ j r, calls σ !! j = Some (Returned r) →
     r = (c, nil_error) ∨ r = (net.Nil, ErrNoConnReuse)) ∧
  (∀ j j', calls σ !! j = Some (Returned (c, nil_error)) →
     calls σ !! j' = Some (Returned (c, nil_error)) → j = j').

(** *** What holds in every state the goroutines can reach *)

(** The points at which a goroutine holds [mu]. *)
Definition holds (p : pc) : bool :=
  match p with
  | AtCheck | AtSwap | AtUnlock _ => true
  | AtLock | Returned _ => false
  end.

(** The moves a goroutine has left, at most. *)
Definition weight (p : pc) : nat :=
  match p with
  | AtLock => 4
  | AtCheck => 3
  | AtSwap => 2
  | AtUnlock _ => 1
  | Returned _ => 0
  end.

Definition remaining (σ : system) : nat := sum_list_with weight (calls σ).

(** Goroutine [j] at [p], when [owner] is the goroutine inside the critical
    section and [w] the one that took the connection [c], if any. *)
Definition thread_inv (c : net.Conn) (owner w : option nat) (j : nat) (p : pc)
  : Prop :=
  (holds p = true → owner = Some j) ∧
  match p with
  | AtLock | AtCheck => True
  | AtSwap => w = None
  | AtUnlock r | Returned r =>
      r = (if decide (w = Some j) then (c, nil_error)
           else (net.Nil, ErrNoConnReuse)) ∧
      (w = None → c = net.Nil)
  end.

Record inv (c : net.Conn) (owner w : option nat) (σ : system) : Prop := {
  inv_mu :
    mu (dialer σ) = if owner is Some _ then sync.Locked else sync.Unlocked;
  inv_conn :
    conn (dialer σ) = if w is Some _ then net.Nil else c;
  inv_owner :
    ∀ j, owner = Some j → ∃ p, calls σ !! j = Some p ∧ holds p = true;
  inv_winner :
    ∀ j, w = Some j →
      calls σ !! j = Some (AtUnlock (c, nil_error)) ∨
      calls σ !! j = Some (Returned (c, nil_error));
  inv_threads :
    ∀ j p, calls σ !! j = Some p → thread_inv c owner w j p
}.

(** *** Where the connection is *)

(** The connection a goroutine has in hand: the one in its results, once
    they are set; before that its local [conn] is still nil. *)
Definition carried (p : pc) : net.Conn :=
  match p with
  | AtUnlock r | Returned r => r.1
  | AtLock | AtCheck | AtSwap => net.Nil
  end.

(** The points a goroutine can be at when the slot never held anything. *)
Definition quiet (p : pc) : Prop :=
  match p with
  | AtLock | AtCheck => True
  | AtSwap => False
  | AtUnlock r | Returned r => r = (net.Nil, ErrNoConnReuse)
  end.

(** Goroutine [j] is on its way out with [c]: inside the critical section
    with [c] still in the slot, or past it with [c] in its results. *)
Definition ahead (c : net.Conn) (j : nat) (σ : system) : Prop :=
  (conn (dialer σ) = c ∧
   (calls σ !! j = Some AtCheck ∨ calls σ !! j = Some AtSwap)) ∨
  calls σ !! j = Some (AtUnlock (c, nil_error)) ∨
  calls σ !! j = Some (Returned (c, nil_error)).

(** The scheduler that gives every goroutine a turn, in order, [rounds]
    times over. *)
Definition round_robin (ncalls rounds : nat) : list nat :=
  concat (replicate rounds (seq 0 ncalls)).

(** ** Examples from the package's tests *)

Example first_dial :
  DialContext context.Background "tcp" "example.com:443"
    (NewSingleUseDialer (net.Obj 7))
  = Some ((net.Obj 7, nil_error), NewSingleUseDialer net.Nil).
Proof. reflexivity. Qed.

Example second_dial_fails :
  take_all [Dial context.Background "tcp" "example.com:443";
            DialTLS context.Canceled "udp" "different.host:8080" None]
    (NewSingleUseDialer (net.Obj 7))
  = Some ([(net.Obj 7, nil_error); (net.Nil, ErrNoConnReuse)],
          NewSingleUseDialer net.Nil).
Proof. reflexivity. Qed.

Example three_goroutines :
  results (run_schedule [2; 0; 2; 1; 2; 2; 1; 0; 1; 0; 1; 0; 0; 0] (start 3 (net.Obj 7)))
  = Some [(net.Nil, ErrNoConnReuse); (net.Nil, ErrNoConnReuse); (net.Obj 7, nil_error)].
Proof. reflexivity. Qed.

(** ** One caller at a time *)

Section Sequential.
Implicit Types (sud : SingleUseDialer) (k : call) (ks : list call).
Implicit Types (c : net.Conn) (e : error) (r : net.Conn * error).

(** What a dial does, by the state of the mutex and of the slot. *)
Lemma take_unfold k sud :
  take k sud =
  match mu sud with
  | sync.Locked => None
  | sync.Unlocked =>
      Some (if net.is_nil (conn sud) then (net.Nil, ErrNoConnReuse)
            else (conn sud, nil_error),
            NewSingleUseDialer net.Nil)
  end.
Proof. destruct k, sud as [[] []]; reflexivity. Qed.

Lemma take_loaded k a :
  take k (NewSingleUseDialer (net.Obj a))
  = Some ((net.Obj a, nil_error), NewSingleUseDialer net.Nil).
Proof. by rewrite take_unfold. Qed.

Lemma take_spent k :
  take k (NewSingleUseDialer net.Nil)
  = Some ((net.Nil, ErrNoConnReuse), NewSingleUseDialer net.Nil).
Proof. by rewrite take_unfold. Qed.

(** A dial that returns leaves the dialer spent and its mutex free. *)
Lemma take_returns k sud r sud' :
  take k sud = Some (r, sud') → sud' = NewSingleUseDialer net.Nil.
Proof. rewrite take_unfold. destruct (mu sud); congruence. Qed.

Lemma take_all_cons k ks sud :
  take_all (k :: ks) sud =
  '(r, sud') ← take k sud;
  '(rs, sud'') ← take_all ks sud';
  Some (r :: rs, sud'').
Proof.
  cbn [take_all]. unfold bind, ret.
  destruct (take k sud) as [[r sud']|]; [|done]. cbn.
  by destruct (take_all ks sud') as [[rs sud'']|].
Qed.

Lemma take_all_spent ks :
  take_all ks (NewSingleUseDialer net.Nil)
  = Some (replicate (length ks) (net.Nil, ErrNoConnReuse),
          NewSingleUseDialer net.Nil).
Proof.
  induction ks as [|k ks IH]; [done|].
  rewrite take_all_cons, take_spent. cbn. by rewrite IH.
Qed.

Lemma take_all_loaded k ks a :
  take_all (k :: ks) (NewSingleUseDialer (net.Obj a))
  = Some ((net.Obj a, nil_error)
            :: replicate (length ks) (net.Nil, ErrNoConnReuse),
          NewSingleUseDialer net.Nil).
Proof. rewrite take_all_cons, take_loaded. cbn. by rewrite take_all_spent. Qed.

Lemma handed_out_losers n :
  filter (λ r, handed_out r = true) (replicate n (net.Nil, ErrNoConnReuse)) = [].
Proof.
  induction n as [|n IH]; [done|]. cbn [replicate].
  rewrite filter_cons_False; [done|]. cbn. discriminate.
Qed.
End Sequential.

(** ** [errors.Is] on the sentinel *)

Lemma Is_sentinel : errors.Is ErrNoConnReuse ErrNoConnReuse = true.
Proof. reflexivity. Qed.

Lemma wrap_all_snoc layers l e :
  wrap_all (layers ++ [l]) e = wrapError l.1 l.2 (wrap_all layers e).
Proof. unfold wrap_all. by rewrite foldl_app. Qed.

Lemma wrap_all_not_nil layers e : e ≠ nil_error → wrap_all layers e ≠ nil_error.
Proof.
  intros He. induction layers as [|l layers _] using rev_ind; [done|].
  by rewrite wrap_all_snoc.
Qed.

(** Any number of [%w] layers around the sentinel still is the sentinel. *)
Lemma Is_wrapped_sentinel layers :
  errors.Is (wrap_all layers ErrNoConnReuse) ErrNoConnReuse = true.
Proof.
  induction layers as [|l layers IH] using rev_ind; [done|].
  rewrite wrap_all_snoc.
  pose proof (wrap_all_not_nil layers ErrNoConnReuse) as Hnn.
  destruct (wrap_all layers ErrNoConnReuse) as [|a s|a msg inner] eqn:Hw.
  - by destruct Hnn.
  - exact IH.
  - exact IH.
Qed.

(** ** The contract, for one caller at a time *)

(** C2 (single success). A dialer made from a non-nil connection [C] holds
    exactly [C] in its slot, and one call of [DialContext] on it returns
    [C] and a nil error. *)
Theorem single_success (C : net.Conn) ctx network addr :
  C ≠ net.Nil →
  conn (NewSingleUseDialer C) = C ∧
  DialContext ctx network addr (NewSingleUseDialer C)
  = Some ((C, nil_error), NewSingleUseDialer net.Nil).
Proof. intros HC. destruct C as [|a]; [done|]. split; reflexivity. Qed.

Lemma single_success_witness :
  net.Obj 7 ≠ net.Nil ∧
  conn (NewSingleUseDialer (net.Obj 7)) = net.Obj 7 ∧
  DialContext context.Background "tcp" "example.com:443"
    (NewSingleUseDialer (net.Obj 7))
  = Some ((net.Obj 7, nil_error), NewSingleUseDialer net.Nil).
Proof.
  split; [discriminate|].
  apply (single_success (net.Obj 7) context.Background "tcp" "example.com:443").
  discriminate.
Defined.

(** C3 (exhaustion). Once a take, through either method, has returned with
    a nil error, every later take on the same dialer returns: a nil
    connection and an error that [errors.Is] finds to be
    [ErrNoConnReuse]. *)
Theorem exhaustion k sud c sud' ks :
  take k sud = Some ((c, nil_error), sud') →
  ∃ rs sud'',
    take_all ks sud' = Some (rs, sud'') ∧
    length rs = length ks ∧
    Forall (λ r, r.1 = net.Nil ∧ errors.Is r.2 ErrNoConnReuse = true) rs.
Proof.
  intros ->%take_returns.
  eexists _, _. split; [apply take_all_spent|].
  split; [apply length_replicate|].
  apply Forall_replicate. split; reflexivity.
Qed.

Lemma exhaustion_witness :
  take (DialTLS context.Background "tcp" "example.com:443" None)
    (NewSingleUseDialer (net.Obj 7))
  = Some ((net.Obj 7, nil_error), NewSingleUseDialer net.Nil) ∧
  ∃ rs sud'',
    take_all [DialTLS context.Background "tcp" "example.com:443" None;
              Dial context.Canceled "udp" "different.host:8080"]
      (NewSingleUseDialer net.Nil) = Some (rs, sud'') ∧
    length rs = 2 ∧
    Forall (λ r, r.1 = net.Nil ∧ errors.Is r.2 ErrNoConnReuse = true) rs.
Proof.
  split; [reflexivity|].
  apply (exhaustion (DialTLS context.Background "tcp" "example.com:443" None)
           (NewSingleUseDialer (net.Obj 7)) (net.Obj 7)).
  reflexivity.
Defined.

(** C4 (one-way slot). From any dialer whose mutex is free, any sequence of
    takes returns; at most one of the results hands out a connection; and
    when the slot was empty at the start, none does and the slot is empty
    at the end. *)
Theorem one_way_slot sud ks :
  mu sud = sync.Unlocked →
  ∃ rs sud',
    take_all ks sud = Some (rs, sud') ∧
    length rs = length ks ∧
    length (filter (λ r, handed_out r = true) rs) ≤ 1 ∧
    (conn sud = net.Nil →
       conn sud' = net.Nil ∧ filter (λ r, handed_out r = true) rs = []).
Proof.
  destruct sud as [m [|a]]; cbn; intros ->.
  - eexists _, _. split; [apply take_all_spent|].
    rewrite length_replicate, handed_out_losers. cbn. auto with lia.
  - destruct ks as [|k ks].
    + eexists _, _. split; [reflexivity|]. cbn. auto with lia.
    + eexists _, _. split; [apply take_all_loaded|].
      cbn [length]. rewrite length_replicate. split; [done|].
      rewrite filter_cons_True by done.
      rewrite handed_out_losers. cbn. split; [lia|done].
Qed.

Lemma one_way_slot_witness :
  mu (NewSingleUseDialer (net.Obj 7)) = sync.Unlocked ∧
  ∃ rs sud',
    take_all [Dial context.Background "tcp" "a:1";
              DialTLS context.Background "tcp" "b:2" None;
              Dial context.Background "tcp" "c:3"]
      (NewSingleUseDialer (net.Obj 7)) = Some (rs, sud') ∧
    length rs = 3 ∧
    length (filter (λ r, handed_out r = true) rs) ≤ 1 ∧
    (net.Obj 7 = net.Nil →
       conn sud' = net.Nil ∧ filter (λ r, handed_out r = true) rs = []).
Proof.
  split; [reflexivity|].
  apply (one_way_slot (NewSingleUseDialer (net.Obj 7))
           [Dial context.Background "tcp" "a:1";
            DialTLS context.Background "tcp" "b:2" None;
            Dial context.Background "tcp" "c:3"]).
  reflexivity.
Defined.

(** No dial ever refills the slot. *)
Lemma take_keeps_empty k sud r sud' :
  take k sud = Some (r, sud') → conn sud' = net.Nil.
Proof. by intros ->%take_returns. Qed.

(** C5 (secure delegation). Whatever the dialer, the context, the network,
    the address and the TLS configuration, nil included, [DialTLSContext]
    returns what [DialContext] returns and leaves the dialer it leaves;
    so a sequence of dials and the same sequence with every
    [DialTLSContext] turned into the [DialContext] of the same arguments
    give the same results at every position. *)
Theorem secure_delegation ctx network address cfg sud ks :
  DialTLSContext ctx network address cfg sud = DialContext ctx network address sud ∧
  take_all ks sud = take_all (plain <$> ks) sud.
Proof.
  split; [reflexivity|].
  revert sud. induction ks as [|k ks IH]; intros sud; [done|].
  rewrite fmap_cons, !take_all_cons.
  replace (take (plain k) sud) with (take k sud) by (by destruct k).
  destruct (take k sud) as [[r sud']|]; [|done]. cbn. by rewrite IH.
Qed.

(** Two sequences of dials of the same length do the same. *)
Lemma take_all_by_length ks1 ks2 sud :
  length ks1 = length ks2 → take_all ks1 sud = take_all ks2 sud.
Proof.
  revert ks2 sud. induction ks1 as [|k1 ks1 IH]; intros [|k2 ks2] sud; try done.
  intros [= Hlen]. rewrite !take_all_cons.
  replace (take k2 sud) with (take k1 sud) by (by rewrite !take_unfold).
  destruct (take k1 sud) as [[r sud']|]; [|done]. cbn. by rewrite (IH ks2).
Qed.

(** C6 (argument irrelevance). From one and the same dialer, two takes
    with any methods and any arguments return the same result and leave
    the same dialer; and two sequences of as many takes return the same
    results, so that only the position of a call decides what it gets. *)
Theorem argument_irrelevance k1 k2 ks1 ks2 sud :
  length ks1 = length ks2 →
  take k1 sud = take k2 sud ∧
  take_all ks1 sud = take_all ks2 sud.
Proof.
  intros Hlen. split; [by rewrite !take_unfold|by apply take_all_by_length].
Qed.

Lemma argument_irrelevance_witness :
  length [Dial context.Background "tcp" "example.com:443";
          Dial context.Background "tcp" "example.com:443"]
  = length [DialTLS context.Canceled "udp" "different.host:8080"
              (Some {| tls.ServerName := "other.host";
                       tls.InsecureSkipVerify := true;
                       tls.NextProtos := ["h2"] |});
            Dial context.DeadlineExceeded "unix" ""] ∧
  take (Dial context.Background "tcp" "example.com:443")
    (NewSingleUseDialer (net.Obj 7))
  = take (DialTLS context.Canceled "udp" "different.host:8080" None)
      (NewSingleUseDialer (net.Obj 7)) ∧
  take_all [Dial context.Background "tcp" "example.com:443";
            Dial context.Background "tcp" "example.com:443"]
    (NewSingleUseDialer (net.Obj 7))
  = take_all [DialTLS context.Canceled "udp" "different.host:8080"
                (Some {| tls.ServerName := "other.host";
                         tls.InsecureSkipVerify := true;
                         tls.NextProtos := ["h2"] |});
              Dial context.DeadlineExceeded "unix" ""]
      (NewSingleUseDialer (net.Obj 7)).
Proof.
  split; [reflexivity|].
  apply (argument_irrelevance
           (Dial context.Background "tcp" "example.com:443")
           (DialTLS context.Canceled "udp" "different.host:8080" None)).
  reflexivity.
Defined.

(** C7 (error identity). The message of [ErrNoConnReuse] is
    "cannot reuse connection"; an error returned by a take, through either
    method, is that very value, [errors.Is] finds it to be the sentinel,
    and still does under any number of wrapping layers. *)
Theorem error_identity k sud c e sud' layers :
  take k sud = Some ((c, e), sud') →
  e ≠ nil_error →
  Error ErrNoConnReuse = Some "cannot reuse connection" ∧
  e = ErrNoConnReuse ∧
  errors.Is e ErrNoConnReuse = true ∧
  errors.Is (wrap_all layers e) ErrNoConnReuse = true.
Proof.
  rewrite take_unfold. intros Htake He.
  assert (e = ErrNoConnReuse) as ->.
  { destruct (mu sud); [|done].
    destruct (net.is_nil (conn sud)); by simplify_eq. }
  split; [reflexivity|]. split; [reflexivity|].
  split; [reflexivity|apply Is_wrapped_sentinel].
Qed.

Lemma error_identity_witness :
  take (Dial context.Background "tcp" "example.com:443")
    (NewSingleUseDialer net.Nil)
  = Some ((net.Nil, ErrNoConnReuse), NewSingleUseDialer net.Nil) ∧
  ErrNoConnReuse ≠ nil_error ∧
  Error ErrNoConnReuse = Some "cannot reuse connection" ∧
  ErrNoConnReuse = ErrNoConnReuse ∧
  errors.Is ErrNoConnReuse ErrNoConnReuse = true ∧
  errors.Is (wrap_all [(40%N, "dial: cannot reuse connection");
                       (41%N, "round trip: dial: cannot reuse connection")]
               ErrNoConnReuse) ErrNoConnReuse = true.
Proof.
  split; [reflexivity|]. split; [discriminate|].
  apply (error_identity (Dial context.Background "tcp" "example.com:443")
           (NewSingleUseDialer net.Nil) net.Nil ErrNoConnReuse
           (NewSingleUseDialer net.Nil)).
  - reflexivity.
  - discriminate.
Defined.

(** C8 (empty seed). On a dialer made from the nil connection every take,
    the first included, returns nil and [ErrNoConnReuse] and leaves the
    dialer as it was; and that dialer is the one a successful take
    leaves behind. *)
Theorem nil_seed_always_fails k ks a :
  take k (NewSingleUseDialer net.Nil)
  = Some ((net.Nil, ErrNoConnReuse), NewSingleUseDialer net.Nil) ∧
  take_all ks (NewSingleUseDialer net.Nil)
  = Some (replicate (length ks) (net.Nil, ErrNoConnReuse),
          NewSingleUseDialer net.Nil) ∧
  snd <$> take k (NewSingleUseDialer (net.Obj a))
  = Some (NewSingleUseDialer net.Nil).
Proof.
  split; [apply take_spent|]. split; [apply take_all_spent|].
  by rewrite take_loaded.
Qed.

(** C9 (no mutation on error). A take that returns a non-nil error leaves
    the dialer exactly as it found it. *)
Theorem failing_take_keeps_state k sud c e sud' :
  take k sud = Some ((c, e), sud') →
  e ≠ nil_error →
  sud' = sud.
Proof.
  rewrite take_unfold. destruct sud as [[] [|a]]; cbn; intros [= <- <- <-] He; done.
Qed.

Lemma failing_take_keeps_state_witness :
  take (DialTLS context.Background "tcp" "example.com:443" None)
    (NewSingleUseDialer net.Nil)
  = Some ((net.Nil, ErrNoConnReuse), NewSingleUseDialer net.Nil) ∧
  ErrNoConnReuse ≠ nil_error ∧
  NewSingleUseDialer net.Nil = NewSingleUseDialer net.Nil.
Proof.
  split; [reflexivity|]. split; [discriminate|].
  apply (failing_take_keeps_state
           (DialTLS context.Background "tcp" "example.com:443" None)
           (NewSingleUseDialer net.Nil) net.Nil ErrNoConnReuse
           (NewSingleUseDialer net.Nil)).
  - reflexivity.
  - discriminate.
Defined.

(** C10 (one slot for both methods). On a dialer made from a non-nil
    connection [C], in any sequence of takes that mixes the two methods,
    the first returns [C] and a nil error and every later one returns nil
    and [ErrNoConnReuse]. *)
Theorem shared_slot (C : net.Conn) k ks :
  C ≠ net.Nil →
  take_all (k :: ks) (NewSingleUseDialer C)
  = Some ((C, nil_error) :: replicate (length ks) (net.Nil, ErrNoConnReuse),
          NewSingleUseDialer net.Nil).
Proof. intros HC. destruct C as [|a]; [done|]. apply take_all_loaded. Qed.

Lemma shared_slot_witness :
  net.Obj 7 ≠ net.Nil ∧
  take_all [DialTLS context.Background "tcp" "example.com:443" None;
            Dial context.Background "tcp" "example.com:443";
            DialTLS context.Background "tcp" "example.com:443" None]
    (NewSingleUseDialer (net.Obj 7))
  = Some ([(net.Obj 7, nil_error); (net.Nil, ErrNoConnReuse);
           (net.Nil, ErrNoConnReuse)],
          NewSingleUseDialer net.Nil).
Proof.
  split; [discriminate|].
  apply (shared_slot (net.Obj 7)
           (DialTLS context.Background "tcp" "example.com:443" None)
           [Dial context.Background "tcp" "example.com:443";
            DialTLS context.Background "tcp" "example.com:443" None]).
  discriminate.
Defined.

(** ** Concurrent callers *)

Section Concurrent.
Implicit Types (σ : system) (p : pc) (owner w : option nat).
Implicit Types (c : net.Conn) (sud : SingleUseDialer).

Lemma step_Some i σ σ' :
  step i σ = Some σ' →
  ∃ p p' sud',
    calls σ !! i = Some p ∧
    thread_step p (dialer σ) = Some (p', sud') ∧
    σ' = {| dialer := sud'; calls := <[i:=p']> (calls σ) |}.
Proof.
  unfold step. intros H.
  destruct (calls σ !! i) as [p|]; [|done]. cbn in H.
  destruct (thread_step p (dialer σ)) as [[p' sud']|] eqn:Hts; [|done].
  cbn in H. injection H as <-. by exists p, p', sud'.
Qed.

Lemma step_length i σ σ' :
  step i σ = Some σ' → length (calls σ') = length (calls σ).
Proof.
  intros (p & p' & sud' & _ & _ & ->)%step_Some. cbn. apply length_insert.
Qed.

Lemma nsteps_length n σ σ' :
  nsteps sched_step n σ σ' → length (calls σ') = length (calls σ).
Proof.
  induction 1 as [|n σ1 σ2 σ3 [i Hi] _ IH]; [done|].
  rewrite IH. by eapply step_length.
Qed.

(** *** Every move uses up some of what is left *)

Lemma sum_list_with_insert {A} (f : A → nat) (l : list A) i x y :
  l !! i = Some x →
  sum_list_with f (<[i:=y]> l) + f x = sum_list_with f l + f y.
Proof.
  revert i. induction l as [|z l IH]; intros [|i] Hi; simplify_eq/=; [lia|].
  specialize (IH i Hi). lia.
Qed.

Lemma thread_step_weight p sud p' sud' :
  thread_step p sud = Some (p', sud') → weight p' < weight p.
Proof.
  destruct p; cbn; intros H; simplify_option_eq; cbn; try lia.
  destruct (net.is_nil _); simplify_eq; cbn; lia.
Qed.

Lemma step_remaining i σ σ' :
  step i σ = Some σ' → remaining σ' < remaining σ.
Proof.
  intros (p & p' & sud' & Hi & Hts%thread_step_weight & ->)%step_Some.
  unfold remaining. cbn.
  pose proof (sum_list_with_insert weight (calls σ) i p p' Hi). lia.
Qed.

Lemma nsteps_remaining n σ σ' :
  nsteps sched_step n σ σ' → n + remaining σ' ≤ remaining σ.
Proof.
  induction 1 as [|n σ1 σ2 σ3 [i Hi%step_remaining] _ IH]; lia.
Qed.

Lemma remaining_start ncalls c : remaining (start ncalls c) = 4 * ncalls.
Proof.
  unfold remaining. cbn. induction ncalls as [|n IH]; [done|].
  cbn [replicate sum_list_with weight]. lia.
Qed.

(** *** The invariant *)

Lemma inv_start ncalls c : inv c None None (start ncalls c).
Proof.
  constructor; cbn; try done.
  intros j p [-> _]%lookup_replicate. by split.
Qed.

(** Splits a lookup in [<[i:=p']> l] at [j] into [j = i] and [j ≠ i]. *)
Local Ltac at_index i j Hi :=
  destruct (decide (i = j)) as [<-|?];
  [rewrite list_lookup_insert_eq by (by eapply lookup_lt_Some, Hi)
  |rewrite list_lookup_insert_ne by done].

(** The lookup in [<[i:=p']> l] at [i] itself. *)
Local Ltac at_same Hi :=
  rewrite list_lookup_insert_eq by (by eapply lookup_lt_Some, Hi).

Lemma inv_step c owner w i σ σ' :
  inv c owner w σ → step i σ = Some σ' → ∃ owner' w', inv c owner' w' σ'.
Proof.
  intros [Hmu Hconn Hown Hwin Hthr] (p & p' & sud' & Hi & Hts & ->)%step_Some.
  destruct (Hthr i p Hi) as [Hhold Hp].
  destruct p as [| | |r|r]; cbn in Hts.
  - (* [sud.mu.Lock()] *)
    destruct (mu (dialer σ)) eqn:Hm; simplify_eq/=.
    destruct owner as [o|]; [by rewrite Hmu in Hm|].
    exists (Some i), w. constructor; cbn; try done.
    + intros j [= <-]. exists AtCheck. by at_same Hi.
    + intros j Hj. at_index i j Hi; [|by apply Hwin].
      destruct (Hwin i Hj); congruence.
    + intros j p. at_index i j Hi; [by intros [= <-]|]. intros Hj.
      destruct (Hthr j p Hj) as [Hh Hpj]. split; [|done].
      intros Hp'. by specialize (Hh Hp').
  - (* [if sud.conn == nil] *)
    specialize (Hhold eq_refl) as ->.
    assert (w ≠ Some i) as Hne.
    { intros Hw. destruct (Hwin i Hw); congruence. }
    destruct (net.is_nil (conn (dialer σ))) eqn:Hnil; simplify_eq/=.
    + exists (Some i), w. constructor; cbn; try done.
      * intros j [= <-]. eexists. by at_same Hi.
      * intros j Hj. at_index i j Hi; [done|by apply Hwin].
      * intros j p. at_index i j Hi; [intros [= <-]|by apply Hthr].
        split; [done|]. rewrite decide_False by done. split; [done|].
        intros ->. rewrite Hconn in Hnil. by destruct c.
    + exists (Some i), w. constructor; cbn; try done.
      * intros j [= <-]. eexists. by at_same Hi.
      * intros j Hj. at_index i j Hi; [done|by apply Hwin].
      * intros j p. at_index i j Hi; [intros [= <-]|by apply Hthr].
        split; [done|]. destruct w; [|done]. by rewrite Hconn in Hnil.
  - (* [conn, sud.conn = sud.conn, nil] *)
    specialize (Hhold eq_refl) as ->. subst w. cbn in Hconn.
    injection Hts as <- <-.
    exists (Some i), (Some i). constructor; cbn; try done.
    + intros j [= <-]. eexists. by at_same Hi.
    + intros j [= <-]. left. at_same Hi. by rewrite Hconn.
    + intros j p. at_index i j Hi.
      * intros [= <-]. split; [done|]. rewrite decide_True by done.
        by rewrite Hconn.
      * intros Hj. destruct (Hthr j p Hj) as [Hh Hpj]. split; [done|].
        destruct p as [| | |r|r]; try done.
        -- specialize (Hh eq_refl). congruence.
        -- specialize (Hh eq_refl). congruence.
        -- destruct Hpj as [Hr _]. rewrite decide_False in Hr by done.
           rewrite decide_False by congruence. by split.
  - (* the deferred [sud.mu.Unlock()] *)
    specialize (Hhold eq_refl) as ->.
    destruct (mu (dialer σ)) eqn:Hm; simplify_eq/=.
    exists None, w. constructor; cbn; try done.
    + intros j Hj. at_index i j Hi; [|by apply Hwin].
      destruct (Hwin i Hj); simplify_eq; by right.
    + intros j p. at_index i j Hi; [by intros [= <-]|]. intros Hj.
      destruct (Hthr j p Hj) as [Hh Hpj]. split; [|done].
      intros Hp'. specialize (Hh Hp'). congruence.
  - done.
Qed.

Lemma inv_nsteps c owner w n σ σ' :
  inv c owner w σ → nsteps sched_step n σ σ' → ∃ owner' w', inv c owner' w' σ'.
Proof.
  intros Hinv Hsteps. revert owner w Hinv.
  induction Hsteps as [|n σ1 σ2 σ3 [i Hi] _ IH]; intros owner w Hinv; [eauto|].
  destruct (inv_step _ _ _ _ _ _ Hinv Hi) as (owner' & w' & Hinv'). eauto.
Qed.

(** *** Nobody hangs *)

Lemma inv_progress c owner w σ :
  inv c owner w σ →
  (∃ i σ', step i σ = Some σ') ∨ Forall (λ p, is_Some (returned p)) (calls σ).
Proof.
  intros [Hmu Hconn Hown Hwin Hthr]. destruct owner as [j|].
  - left. destruct (Hown j eq_refl) as (p & Hj & Hp). exists j.
    unfold step. rewrite Hj. cbn.
    destruct p as [| | |r|r]; try done; cbn.
    + destruct (net.is_nil _); eauto.
    + eauto.
    + rewrite Hmu. cbn. eauto.
  - destruct (Forall_Exists_dec
                (λ p, is_Some (returned p)) (λ p, returned p = None)
                (λ p, match returned p as o
                        return {is_Some o} + {o = None} with
                      | Some r => left (ex_intro _ r eq_refl)
                      | None => right eq_refl
                      end) (calls σ)) as [Hall|Hex]; [by right|left].
    apply Exists_exists in Hex as (p & (j & Hj)%list_elem_of_lookup & Hp).
    destruct (Hthr j p Hj) as [Hh _]. exists j.
    unfold step. rewrite Hj. cbn.
    destruct p as [| | |r|r]; try (by specialize (Hh eq_refl)); [|done].
    cbn. rewrite Hmu. cbn. eauto.
Qed.

(** From wherever the goroutines are, the calls can all be brought back. *)
Lemma inv_completes c owner w σ :
  inv c owner w σ →
  ∃ n σ', nsteps sched_step n σ σ' ∧ is_Some (results σ').
Proof.
  remember (remaining σ) as m eqn:Hm. revert owner w σ Hm.
  induction m as [m IH] using lt_wf_ind. intros owner w σ -> Hinv.
  destruct (inv_progress _ _ _ _ Hinv) as [(i & σ' & Hi)|Hall].
  - destruct (inv_step _ _ _ _ _ _ Hinv Hi) as (owner' & w' & Hinv').
    destruct (IH (remaining σ') (step_remaining _ _ _ Hi) owner' w' σ' eq_refl Hinv')
      as (n & σ'' & Hsteps & Hres).
    exists (S n), σ''. split; [|done]. econstructor; [by exists i|done].
  - exists 0, σ. split; [constructor|]. by apply mapM_is_Some.
Qed.

(** *** What the calls return *)

Lemma inv_returned c owner w σ j r :
  inv c owner w σ → calls σ !! j = Some (Returned r) →
  r = (c, nil_error) ∨ r = (net.Nil, ErrNoConnReuse).
Proof.
  intros Hinv Hj. destruct (inv_threads _ _ _ _ Hinv j _ Hj) as [_ [-> _]].
  case_decide; auto.
Qed.

Lemma inv_one_winner c owner w σ j j' :
  c ≠ net.Nil → inv c owner w σ →
  calls σ !! j = Some (Returned (c, nil_error)) →
  calls σ !! j' = Some (Returned (c, nil_error)) →
  j = j'.
Proof.
  intros Hc Hinv Hj Hj'.
  destruct (inv_threads _ _ _ _ Hinv j _ Hj) as [_ [Hr _]].
  destruct (inv_threads _ _ _ _ Hinv j' _ Hj') as [_ [Hr' _]].
  repeat case_decide; congruence.
Qed.

Lemma inv_results c owner w σ rs :
  c ≠ net.Nil → inv c owner w σ → 1 ≤ length (calls σ) →
  results σ = Some rs → exactly_one_wins c (length (calls σ)) rs.
Proof.
  intros Hc Hinv Hlen Hrs. apply mapM_Some in Hrs.
  assert (∀ j r, rs !! j = Some r → calls σ !! j = Some (Returned r)) as Hback.
  { intros j r Hj.
    destruct (Forall2_lookup_r _ _ _ _ _ Hrs Hj) as (p & Hp & Hret).
    by destruct p; simplify_eq/=. }
  pose proof (Forall2_length _ _ _ Hrs) as Hlen'.
  split; [done|].
  assert (∃ i, w = Some i) as [i ->].
  { destruct (lookup_lt_is_Some_2 rs 0) as [r0 Hr0]; [lia|].
    destruct (inv_threads _ _ _ _ Hinv 0 _ (Hback _ _ Hr0)) as [_ [_ Hw]].
    destruct w as [i|]; [by exists i|by destruct Hc; apply Hw]. }
  exists i. split.
  - destruct (inv_winner _ _ _ _ Hinv i eq_refl) as [Hi|Hi];
      destruct (Forall2_lookup_l _ _ _ _ _ Hrs Hi) as (r & Hr & Hret);
      by simplify_eq/=.
  - intros j Hne Hj.
    destruct (lookup_lt_is_Some_2 rs j) as [r Hr]; [lia|].
    destruct (inv_threads _ _ _ _ Hinv j _ (Hback _ _ Hr)) as [_ [-> _]].
    by rewrite decide_False in Hr by congruence.
Qed.
End Concurrent.

(** Whatever the scheduler picks, it only makes moves of the goroutines. *)
Lemma run_schedule_nsteps sched σ :
  ∃ n, n ≤ length sched ∧ nsteps sched_step n σ (run_schedule sched σ).
Proof.
  revert σ. induction sched as [|i sched IH]; intros σ.
  - exists 0. split; [done|]. apply nsteps_O.
  - cbn [run_schedule foldl]. destruct (step i σ) as [σ'|] eqn:Hi; cbn.
    + destruct (IH σ') as (n & Hn & Hsteps). exists (S n).
      split; [cbn; lia|]. eapply nsteps_l; [by exists i|done].
    + destruct (IH σ) as (n & Hn & Hsteps). exists n. split; [cbn; lia|done].
Qed.

(** A goroutine alone on the dialer does what the method does. *)
Lemma thread_run_DialContext ctx network addr sud :
  thread_run 4 AtLock sud = DialContext ctx network addr sud.
Proof. destruct sud as [[] []]; reflexivity. Qed.

(** No move of any goroutine refills the slot. *)
Lemma step_keeps_empty i σ σ' :
  step i σ = Some σ' →
  conn (dialer σ) = net.Nil → conn (dialer σ') = net.Nil.
Proof.
  intros (p & p' & sud' & _ & Hts & ->)%step_Some Hnil. cbn.
  destruct p; cbn in Hts; simplify_option_eq; try done.
  by destruct (net.is_nil _); simplify_eq.
Qed.

(** C1 (concurrency exactness), for a non-nil seed. With [ncalls ≥ 1]
    goroutines calling [DialContext] on a fresh dialer made from a non-nil
    connection [C], under any scheduling: there are at most [4 * ncalls]
    moves; in every state reached either some goroutine can move or all
    the calls are back, exactly one with [C] and a nil error and the
    others with nil and [ErrNoConnReuse]; and no call has ever returned
    anything else, nor two of them [C]. *)
Theorem concurrent_exactly_one (C : net.Conn) ncalls n σ :
  1 ≤ ncalls →
  C ≠ net.Nil →
  nsteps sched_step n (start ncalls C) σ →
  concurrent_outcome C ncalls n σ.
Proof.
  intros Hn HC Hsteps.
  destruct (inv_nsteps _ _ _ _ _ _ (inv_start ncalls C) Hsteps)
    as (owner & w & Hinv).
  pose proof (nsteps_length _ _ _ Hsteps) as Hlen.
  cbn in Hlen. rewrite length_replicate in Hlen.
  split.
  { pose proof (nsteps_remaining _ _ _ Hsteps) as Hrem.
    rewrite remaining_start in Hrem. lia. }
  split.
  { destruct (inv_progress _ _ _ _ Hinv) as [Hmove|Hall]; [by left|right].
    apply mapM_is_Some in Hall as [rs Hrs]. exists rs. split; [done|].
    rewrite <- Hlen. eapply inv_results; [done..|lia|done]. }
  split; [by eapply inv_completes|].
  split.
  - intros j r. by eapply inv_returned.
  - intros j j'. by eapply inv_one_winner.
Qed.

Lemma concurrent_exactly_one_witness :
  1 ≤ 2 ∧
  net.Obj 7 ≠ net.Nil ∧
  nsteps sched_step 7 (start 2 (net.Obj 7))
    (run_schedule [1; 1; 1; 1; 0; 0; 0] (start 2 (net.Obj 7))) ∧
  concurrent_outcome (net.Obj 7) 2 7
    (run_schedule [1; 1; 1; 1; 0; 0; 0] (start 2 (net.Obj 7))).
Proof.
  assert (nsteps sched_step 7 (start 2 (net.Obj 7))
            (run_schedule [1; 1; 1; 1; 0; 0; 0] (start 2 (net.Obj 7)))) as Hrun.
  { do 4 (eapply nsteps_l; [by exists 1|]).
    do 3 (eapply nsteps_l; [by exists 0|]).
    apply nsteps_O. }
  split; [lia|]. split; [discriminate|]. split; [exact Hrun|].
  apply (concurrent_exactly_one (net.Obj 7) 2 7); [lia|discriminate|exact Hrun].
Defined.

(** On a dialer made from the nil connection the one call of a single
    goroutine comes back, after three moves, with nil and
    [ErrNoConnReuse]: nothing can move any more, and no call has returned
    the seed with a nil error. *)
Lemma nil_seed_no_winner :
  nsteps sched_step 3 (start 1 net.Nil)
    (run_schedule [0; 0; 0] (start 1 net.Nil)) ∧
  (∀ i, step i (run_schedule [0; 0; 0] (start 1 net.Nil)) = None) ∧
  results (run_schedule [0; 0; 0] (start 1 net.Nil))
  = Some [(net.Nil, ErrNoConnReuse)] ∧
  ¬ exactly_one_wins net.Nil 1 [(net.Nil, ErrNoConnReuse)] ∧
  ¬ concurrent_outcome net.Nil 1 3 (run_schedule [0; 0; 0] (start 1 net.Nil)).
Proof.
  assert (∀ i, step i (run_schedule [0; 0; 0] (start 1 net.Nil)) = None) as Hstuck.
  { by intros [|[|i]]. }
  assert (¬ exactly_one_wins net.Nil 1 [(net.Nil, ErrNoConnReuse)]) as Hnone.
  { intros (_ & i & Hi & _). by destruct i as [|[|i]]. }
  split.
  { do 3 (eapply nsteps_l; [by exists 0|]). apply nsteps_O. }
  split; [exact Hstuck|]. split; [reflexivity|]. split; [exact Hnone|].
  intros (_ & [(i & σ' & Hi)|(rs & Hrs & Hwin)] & _).
  - by rewrite Hstuck in Hi.
  - injection Hrs as <-. by apply Hnone.
Qed.

(** ** More on what the code does *)

(** *** One caller at a time *)

(** X1 (shape of a result). A take never returns both a connection and an
    error, nor neither: it
    returns the connection that was in the slot and a nil error, or, the
    slot being empty, nil and [ErrNoConnReuse]; so [errors.Is] against the
    sentinel is true exactly for the results without a connection. *)
Theorem result_shape k sud c e sud' :
  take k sud = Some ((c, e), sud') →
  ((c = conn sud ∧ c ≠ net.Nil ∧ e = nil_error) ∨
   (c = net.Nil ∧ conn sud = net.Nil ∧ e = ErrNoConnReuse)) ∧
  errors.Is e ErrNoConnReuse = net.is_nil c.
Proof.
  rewrite take_unfold. destruct sud as [[] [|a]]; cbn; intros [= <- <- <-].
  - split; [by right|done].
  - split; [by left|done].
Qed.

Lemma result_shape_witness :
  take (Dial context.Background "tcp" "example.com:443")
    (NewSingleUseDialer (net.Obj 7))
  = Some ((net.Obj 7, nil_error), NewSingleUseDialer net.Nil) ∧
  ((net.Obj 7 = conn (NewSingleUseDialer (net.Obj 7)) ∧
    net.Obj 7 ≠ net.Nil ∧ nil_error = nil_error) ∨
   (net.Obj 7 = net.Nil ∧ conn (NewSingleUseDialer (net.Obj 7)) = net.Nil ∧
    nil_error = ErrNoConnReuse)) ∧
  errors.Is nil_error ErrNoConnReuse = net.is_nil (net.Obj 7).
Proof.
  split; [reflexivity|].
  apply (result_shape (Dial context.Background "tcp" "example.com:443")
           (NewSingleUseDialer (net.Obj 7)) (net.Obj 7) nil_error
           (NewSingleUseDialer net.Nil)).
  reflexivity.
Defined.


(** X3 (identity, not text). [errors.Is] tells the sentinel by what it is,
    not by what it says: an
    error made by [errors.New], under any number of wrapping layers, is
    found to be [ErrNoConnReuse] exactly when it is the value allocated
    for [ErrNoConnReuse], whatever its text. *)
Theorem sentinel_by_identity layers a s :
  errors.Is (wrap_all layers (errors.New a s)) ErrNoConnReuse = true ↔
  a = ErrNoConnReuse_addr.
Proof.
  induction layers as [|l layers IH] using rev_ind.
  - cbn. rewrite <- N.eqb_eq. by destruct (a =? ErrNoConnReuse_addr)%N.
  - rewrite wrap_all_snoc, <- IH.
    pose proof (wrap_all_not_nil layers (errors.New a s)) as Hnn.
    by destruct (wrap_all layers (errors.New a s)) as [|a' s'|a' msg inner];
      [destruct Hnn|..].
Qed.

(** *** Concurrent callers *)

Lemma reach_inv c ncalls n σ :
  nsteps sched_step n (start ncalls c) σ → ∃ owner w, inv c owner w σ.
Proof. intros Hsteps. eapply inv_nsteps; [apply inv_start|done]. Qed.

Lemma results_lookup σ rs j p :
  results σ = Some rs → calls σ !! j = Some p → ∃ r, p = Returned r.
Proof.
  intros Hrs%mapM_Some Hj.
  destruct (Forall2_lookup_l _ _ _ _ _ Hrs Hj) as (r & _ & Hr).
  exists r. by destruct p; simplify_eq/=.
Qed.

(** X4 (mutual exclusion). The mutex is held by the one goroutine inside
    the critical section:
    in every state that concurrent calls of [DialContext] on a fresh
    dialer can reach, no two goroutines are between [Lock] and [Unlock],
    and the mutex is locked exactly when one is. *)
Theorem mutual_exclusion c ncalls n σ :
  nsteps sched_step n (start ncalls c) σ →
  (∀ j j' p p',
     calls σ !! j = Some p → holds p = true →
     calls σ !! j' = Some p' → holds p' = true → j = j') ∧
  (mu (dialer σ) = sync.Locked ↔
   ∃ j p, calls σ !! j = Some p ∧ holds p = true).
Proof.
  intros (owner & w & Hinv)%reach_inv. split.
  - intros j j' p p' Hj Hp Hj' Hp'.
    destruct (inv_threads _ _ _ _ Hinv j p Hj) as [Ho _].
    destruct (inv_threads _ _ _ _ Hinv j' p' Hj') as [Ho' _].
    specialize (Ho Hp). specialize (Ho' Hp'). congruence.
  - rewrite (inv_mu _ _ _ _ Hinv). split.
    + destruct owner as [j|]; [|done]. intros _.
      destruct (inv_owner _ _ _ _ Hinv j eq_refl) as (p & Hj & Hp). eauto.
    + intros (j & p & Hj & Hp).
      destruct (inv_threads _ _ _ _ Hinv j p Hj) as [Ho _].
      by rewrite (Ho Hp).
Qed.

Lemma mutual_exclusion_witness :
  nsteps sched_step 2 (start 2 (net.Obj 7))
    (run_schedule [1; 1] (start 2 (net.Obj 7))) ∧
  (∀ j j' p p',
     calls (run_schedule [1; 1] (start 2 (net.Obj 7))) !! j = Some p →
     holds p = true →
     calls (run_schedule [1; 1] (start 2 (net.Obj 7))) !! j' = Some p' →
     holds p' = true → j = j') ∧
  (mu (dialer (run_schedule [1; 1] (start 2 (net.Obj 7)))) = sync.Locked ↔
   ∃ j p, calls (run_schedule [1; 1] (start 2 (net.Obj 7))) !! j = Some p ∧
          holds p = true).
Proof.
  assert (nsteps sched_step 2 (start 2 (net.Obj 7))
            (run_schedule [1; 1] (start 2 (net.Obj 7)))) as Hrun.
  { do 2 (eapply nsteps_l; [by exists 1|]). apply nsteps_O. }
  split; [exact Hrun|].
  apply (mutual_exclusion (net.Obj 7) 2 2). exact Hrun.
Defined.

(** X5 (the slot is never refilled). No move of any goroutine puts a
    connection into the slot: from any
    state of the dialer and of the goroutines, once [sud.conn] is nil it
    is nil after any number of moves. *)
Theorem slot_never_refilled n σ σ' :
  nsteps sched_step n σ σ' →
  conn (dialer σ) = net.Nil →
  conn (dialer σ') = net.Nil.
Proof.
  induction 1 as [|n σ1 σ2 σ3 [i Hi] _ IH]; [done|].
  intros Hnil. apply IH. by eapply step_keeps_empty.
Qed.

Lemma slot_never_refilled_witness :
  nsteps sched_step 4 (run_schedule [0; 0; 0] (start 2 (net.Obj 7)))
    (run_schedule [0; 0; 0; 0; 1; 1; 1] (start 2 (net.Obj 7))) ∧
  conn (dialer (run_schedule [0; 0; 0] (start 2 (net.Obj 7)))) = net.Nil ∧
  conn (dialer (run_schedule [0; 0; 0; 0; 1; 1; 1] (start 2 (net.Obj 7))))
  = net.Nil.
Proof.
  assert (nsteps sched_step 4 (run_schedule [0; 0; 0] (start 2 (net.Obj 7)))
            (run_schedule [0; 0; 0; 0; 1; 1; 1] (start 2 (net.Obj 7)))) as Hrun.
  { eapply nsteps_l; [by exists 0|].
    do 3 (eapply nsteps_l; [by exists 1|]). apply nsteps_O. }
  split; [exact Hrun|]. split; [reflexivity|].
  apply (slot_never_refilled 4 (run_schedule [0; 0; 0] (start 2 (net.Obj 7))));
    [exact Hrun|reflexivity].
Defined.

(** X6 (conservation). The connection is never lost and never in two
    places: in every state
    that concurrent calls on a fresh dialer made from a non-nil [C] can
    reach, either [C] is in the slot and no goroutine has a connection in
    hand, or the slot is empty and exactly one goroutine has [C] in hand,
    the others none. *)
Theorem connection_conserved (C : net.Conn) ncalls n σ :
  C ≠ net.Nil →
  nsteps sched_step n (start ncalls C) σ →
  (conn (dialer σ) = C ∧
   ∀ j p, calls σ !! j = Some p → carried p = net.Nil) ∨
  (conn (dialer σ) = net.Nil ∧
   ∃ i p, calls σ !! i = Some p ∧ carried p = C ∧
          ∀ j q, j ≠ i → calls σ !! j = Some q → carried q = net.Nil).
Proof.
  intros HC (owner & w & Hinv)%reach_inv.
  pose proof (inv_conn _ _ _ _ Hinv) as Hconn.
  destruct w as [i|]; [right|left]; (split; [done|]).
  - destruct (inv_winner _ _ _ _ Hinv i eq_refl) as [Hi|Hi];
      (eexists i, _; split; [exact Hi|]; split; [done|]);
      intros j q Hne Hj;
      destruct (inv_threads _ _ _ _ Hinv j q Hj) as [_ Hq];
      destruct q as [| | |r|r]; try done; destruct Hq as [-> _];
      by rewrite decide_False by congruence.
  - intros j p Hj.
    destruct (inv_threads _ _ _ _ Hinv j p Hj) as [_ Hp].
    by destruct p as [| | |r|r]; try done; destruct Hp as [-> _].
Qed.

Lemma connection_conserved_witness :
  net.Obj 7 ≠ net.Nil ∧
  nsteps sched_step 3 (start 2 (net.Obj 7))
    (run_schedule [1; 1; 1] (start 2 (net.Obj 7))) ∧
  ((conn (dialer (run_schedule [1; 1; 1] (start 2 (net.Obj 7)))) = net.Obj 7 ∧
    ∀ j p, calls (run_schedule [1; 1; 1] (start 2 (net.Obj 7))) !! j = Some p →
           carried p = net.Nil) ∨
   (conn (dialer (run_schedule [1; 1; 1] (start 2 (net.Obj 7)))) = net.Nil ∧
    ∃ i p, calls (run_schedule [1; 1; 1] (start 2 (net.Obj 7))) !! i = Some p ∧
           carried p = net.Obj 7 ∧
           ∀ j q, j ≠ i →
             calls (run_schedule [1; 1; 1] (start 2 (net.Obj 7))) !! j = Some q →
             carried q = net.Nil)).
Proof.
  assert (nsteps sched_step 3 (start 2 (net.Obj 7))
            (run_schedule [1; 1; 1] (start 2 (net.Obj 7)))) as Hrun.
  { do 3 (eapply nsteps_l; [by exists 1|]). apply nsteps_O. }
  split; [discriminate|]. split; [exact Hrun|].
  apply (connection_conserved (net.Obj 7) 2 3); [discriminate|exact Hrun].
Defined.

(** An empty slot only ever gives losers. *)
Lemma quiet_step i σ σ' :
  step i σ = Some σ' →
  conn (dialer σ) = net.Nil → Forall quiet (calls σ) →
  conn (dialer σ') = net.Nil ∧ Forall quiet (calls σ').
Proof.
  intros Hstep Hnil Hq. split; [by eapply step_keeps_empty|].
  destruct (step_Some _ _ _ Hstep) as (p & p' & sud' & Hi & Hts & ->). cbn.
  apply Forall_insert; [done|].
  pose proof (Forall_lookup_1 _ _ _ _ Hq Hi) as Hp.
  destruct p as [| | |r|r]; cbn in Hts; simplify_option_eq; try done.
  rewrite Hnil in Hts. by simplify_eq/=.
Qed.

Lemma quiet_nsteps n σ σ' :
  nsteps sched_step n σ σ' →
  conn (dialer σ) = net.Nil → Forall quiet (calls σ) →
  conn (dialer σ') = net.Nil ∧ Forall quiet (calls σ').
Proof.
  induction 1 as [|n σ1 σ2 σ3 [i Hi] _ IH]; [done|]. intros Hnil Hq.
  destruct (quiet_step _ _ _ Hi Hnil Hq) as [Hnil' Hq']. by apply IH.
Qed.

Lemma quiet_results (ps : list pc) :
  Forall (λ p, is_Some (returned p)) ps → Forall quiet ps →
  mapM returned ps = Some (replicate (length ps) (net.Nil, ErrNoConnReuse)).
Proof.
  intros Hall Hq. apply mapM_Some.
  induction ps as [|p ps IH]; [constructor|].
  apply Forall_cons in Hall as [[r Hr] Hall]. apply Forall_cons in Hq as [Hp Hq].
  cbn [length replicate]. constructor; [|by apply IH].
  destruct p; simplify_eq/=. done.
Qed.

(** When all the calls are back nobody holds the mutex. *)
Lemma inv_back_unlocked c owner w σ rs :
  inv c owner w σ → results σ = Some rs → mu (dialer σ) = sync.Unlocked.
Proof.
  intros Hinv Hrs. rewrite (inv_mu _ _ _ _ Hinv).
  destruct owner as [j|]; [|done].
  destruct (inv_owner _ _ _ _ Hinv j eq_refl) as (p & Hj & Hp).
  by destruct (results_lookup _ _ _ _ Hrs Hj) as [r ->].
Qed.

(** X7 (concurrent calls, nil seed). Concurrent calls on a dialer made
    from the nil connection: under any
    scheduling there are at most [4 * ncalls] moves, in every state
    reached either some goroutine can move or all the calls are back with
    nil and [ErrNoConnReuse], the calls can all be brought back, the slot
    stays nil, and no call ever returns anything else. *)
Theorem concurrent_nil_seed ncalls n σ :
  nsteps sched_step n (start ncalls net.Nil) σ →
  n ≤ 4 * ncalls ∧
  ((∃ i σ', step i σ = Some σ') ∨
   results σ = Some (replicate ncalls (net.Nil, ErrNoConnReuse))) ∧
  (∃ m σ', nsteps sched_step m σ σ' ∧ is_Some (results σ')) ∧
  conn (dialer σ) = net.Nil ∧
  (∀ j r, calls σ !! j = Some (Returned r) → r = (net.Nil, ErrNoConnReuse)).
Proof.
  intros Hsteps.
  destruct (reach_inv _ _ _ _ Hsteps) as (owner & w & Hinv).
  destruct (quiet_nsteps _ _ _ Hsteps) as [Hnil Hq]; [done|..].
  { cbn. by apply Forall_replicate. }
  pose proof (nsteps_length _ _ _ Hsteps) as Hlen.
  cbn in Hlen. rewrite length_replicate in Hlen.
  split.
  { pose proof (nsteps_remaining _ _ _ Hsteps) as Hrem.
    rewrite remaining_start in Hrem. lia. }
  split.
  { destruct (inv_progress _ _ _ _ Hinv) as [Hmove|Hall]; [by left|right].
    unfold results. by rewrite quiet_results, Hlen. }
  split; [by eapply inv_completes|]. split; [done|].
  intros j r Hj. exact (Forall_lookup_1 _ _ _ _ Hq Hj).
Qed.

Lemma concurrent_nil_seed_witness :
  nsteps sched_step 6 (start 2 net.Nil)
    (run_schedule [1; 1; 1; 0; 0; 0] (start 2 net.Nil)) ∧
  6 ≤ 4 * 2 ∧
  ((∃ i σ', step i (run_schedule [1; 1; 1; 0; 0; 0] (start 2 net.Nil)) = Some σ') ∨
   results (run_schedule [1; 1; 1; 0; 0; 0] (start 2 net.Nil))
   = Some (replicate 2 (net.Nil, ErrNoConnReuse))) ∧
  (∃ m σ', nsteps sched_step m
             (run_schedule [1; 1; 1; 0; 0; 0] (start 2 net.Nil)) σ' ∧
           is_Some (results σ')) ∧
  conn (dialer (run_schedule [1; 1; 1; 0; 0; 0] (start 2 net.Nil))) = net.Nil ∧
  (∀ j r, calls (run_schedule [1; 1; 1; 0; 0; 0] (start 2 net.Nil)) !! j
          = Some (Returned r) → r = (net.Nil, ErrNoConnReuse)).
Proof.
  assert (nsteps sched_step 6 (start 2 net.Nil)
            (run_schedule [1; 1; 1; 0; 0; 0] (start 2 net.Nil))) as Hrun.
  { do 3 (eapply nsteps_l; [by exists 1|]).
    do 3 (eapply nsteps_l; [by exists 0|]). apply nsteps_O. }
  split; [exact Hrun|].
  apply (concurrent_nil_seed 2 6). exact Hrun.
Defined.

Lemma one_winner_perm c n rs :
  exactly_one_wins c n rs →
  rs ≡ₚ (c, nil_error) :: replicate (n - 1) (net.Nil, ErrNoConnReuse).
Proof.
  intros (Hlen & i & Hi & Hothers).
  pose proof (lookup_lt_Some _ _ _ Hi) as Hlt.
  rewrite <- (take_drop_middle rs i _ Hi), <- Permutation_middle.
  constructor.
  rewrite (replicate_as_Forall_2 (net.Nil, ErrNoConnReuse) (n - 1)
             (firstn i rs ++ skipn (S i) rs)); [done|..].
  - rewrite length_app, length_take, length_drop. lia.
  - apply Forall_app. split; apply Forall_lookup; intros j r Hj.
    + apply lookup_take_Some in Hj as [Hj Hji].
      rewrite Hothers in Hj by lia. congruence.
    + rewrite lookup_drop in Hj. pose proof (lookup_lt_Some _ _ _ Hj).
      rewrite Hothers in Hj by lia. congruence.
Qed.

(** With a non-nil seed and all the calls back, the slot is empty. *)
Lemma inv_back_empty c owner w σ rs :
  c ≠ net.Nil → inv c owner w σ → 1 ≤ length (calls σ) →
  results σ = Some rs → conn (dialer σ) = net.Nil.
Proof.
  intros Hc Hinv Hlen Hrs. rewrite (inv_conn _ _ _ _ Hinv).
  destruct w as [i|]; [done|].
  destruct (lookup_lt_is_Some_2 (calls σ) 0) as [p Hp]; [lia|].
  destruct (results_lookup _ _ _ _ Hrs Hp) as [r ->].
  destruct (inv_threads _ _ _ _ Hinv 0 _ Hp) as [_ [_ Hw]].
  by destruct Hc; apply Hw.
Qed.

(** X8 (serializability). Concurrent calls do what the same calls do one
    after the other: when
    [ncalls] concurrent calls of [DialContext] on a fresh dialer are all
    back, whatever the seed and the scheduling, their results are a
    permutation of the results of [ncalls] calls made in sequence, and
    the dialer is the one the sequence leaves. *)
Theorem serializable c ncalls n σ rs ctx network addr :
  nsteps sched_step n (start ncalls c) σ →
  results σ = Some rs →
  ∃ rs_seq,
    take_all (replicate ncalls (Dial ctx network addr)) (NewSingleUseDialer c)
    = Some (rs_seq, dialer σ) ∧
    rs ≡ₚ rs_seq.
Proof.
  intros Hsteps Hrs.
  destruct (reach_inv _ _ _ _ Hsteps) as (owner & w & Hinv).
  pose proof (nsteps_length _ _ _ Hsteps) as Hlen.
  cbn in Hlen. rewrite length_replicate in Hlen.
  pose proof (inv_back_unlocked _ _ _ _ _ Hinv Hrs) as Hmu.
  destruct ncalls as [|ncalls].
  - pose proof (nsteps_remaining _ _ _ Hsteps) as Hrem.
    rewrite remaining_start in Hrem.
    assert (n = 0) as -> by lia.
    inversion Hsteps; subst. cbn in Hrs. injection Hrs as <-. by exists [].
  - cbn [replicate]. destruct c as [|a].
    + destruct (quiet_nsteps _ _ _ Hsteps) as [Hnil Hq]; [done|..].
      { cbn [start calls]. by apply Forall_replicate. }
      assert (dialer σ = NewSingleUseDialer net.Nil) as ->.
      { destruct (dialer σ); by simplify_eq/=. }
      eexists. split; [apply (take_all_spent (_ :: _))|].
      unfold results in Hrs. rewrite quiet_results in Hrs.
      * injection Hrs as <-. cbn [length]. by rewrite Hlen, length_replicate.
      * apply mapM_is_Some. by rewrite Hrs.
      * done.
    + assert (conn (dialer σ) = net.Nil) as Hnil.
      { eapply (inv_back_empty (net.Obj a)); [done|exact Hinv|lia|exact Hrs]. }
      assert (dialer σ = NewSingleUseDialer net.Nil) as ->.
      { destruct (dialer σ); by simplify_eq/=. }
      eexists. split; [apply take_all_loaded|].
      rewrite length_replicate.
      replace ncalls with (S ncalls - 1) at 1 by lia.
      apply one_winner_perm. rewrite <- Hlen.
      eapply (inv_results (net.Obj a)); [done|exact Hinv|lia|exact Hrs].
Qed.

Lemma serializable_witness :
  nsteps sched_step 7 (start 2 (net.Obj 7))
    (run_schedule [1; 1; 1; 1; 0; 0; 0] (start 2 (net.Obj 7))) ∧
  results (run_schedule [1; 1; 1; 1; 0; 0; 0] (start 2 (net.Obj 7)))
  = Some [(net.Nil, ErrNoConnReuse); (net.Obj 7, nil_error)] ∧
  ∃ rs_seq,
    take_all (replicate 2 (Dial context.Background "tcp" "example.com:443"))
      (NewSingleUseDialer (net.Obj 7))
    = Some (rs_seq,
            dialer (run_schedule [1; 1; 1; 1; 0; 0; 0] (start 2 (net.Obj 7)))) ∧
    [(net.Nil, ErrNoConnReuse); (net.Obj 7, nil_error)] ≡ₚ rs_seq.
Proof.
  assert (nsteps sched_step 7 (start 2 (net.Obj 7))
            (run_schedule [1; 1; 1; 1; 0; 0; 0] (start 2 (net.Obj 7)))) as Hrun.
  { do 4 (eapply nsteps_l; [by exists 1|]).
    do 3 (eapply nsteps_l; [by exists 0|]). apply nsteps_O. }
  split; [exact Hrun|]. split; [reflexivity|].
  apply (serializable (net.Obj 7) 2 7
           (run_schedule [1; 1; 1; 1; 0; 0; 0] (start 2 (net.Obj 7))));
    [exact Hrun|reflexivity].
Defined.

(** *** Who gets the connection *)

Lemma ahead_step c owner w j i σ σ' :
  c ≠ net.Nil → inv c owner w σ → ahead c j σ →
  step i σ = Some σ' → ahead c j σ'.
Proof.
  intros Hc Hinv Hahead (p & p' & sud' & Hi & Hts & ->)%step_Some.
  unfold ahead. cbn. destruct (decide (i = j)) as [->|Hne].
  - rewrite list_lookup_insert_eq by (by eapply lookup_lt_Some).
    destruct Hahead as [[Hconn [Hj|Hj]]|[Hj|Hj]];
      rewrite Hi in Hj; injection Hj as ->; cbn in Hts.
    + rewrite Hconn in Hts. destruct c; [done|]. injection Hts as <- <-. auto.
    + injection Hts as <- <-. rewrite Hconn. auto.
    + destruct (sync.Unlock _); [|done]. injection Hts as <- <-. auto.
    + done.
  - rewrite list_lookup_insert_ne by done.
    destruct Hahead as [[Hconn Hj]|Hj]; [left|by right]. split; [|done].
    assert (owner = Some j) as ->.
    { destruct Hj as [Hj|Hj];
        by destruct (inv_threads _ _ _ _ Hinv j _ Hj) as [-> _]. }
    destruct (inv_threads _ _ _ _ Hinv i p Hi) as [Ho _].
    destruct p as [| | |r|r]; cbn in Hts; simplify_option_eq; try done.
    + by destruct (net.is_nil _); simplify_eq.
    + specialize (Ho eq_refl). congruence.
Qed.

Lemma ahead_nsteps c owner w j n σ σ' :
  c ≠ net.Nil → inv c owner w σ → ahead c j σ →
  nsteps sched_step n σ σ' → ahead c j σ'.
Proof.
  intros Hc Hinv Hahead Hsteps. revert owner w Hinv Hahead.
  induction Hsteps as [|n σ1 σ2 σ3 [i Hi] _ IH]; intros owner w Hinv Hahead;
    [done|].
  destruct (inv_step _ _ _ _ _ _ Hinv Hi) as (owner' & w' & Hinv').
  apply (IH owner' w' Hinv'). exact (ahead_step _ _ _ _ _ _ _ Hc Hinv Hahead Hi).
Qed.

(** X9 (the first to lock wins). The goroutine that has the mutex while
    the connection is still in the
    slot is the one that gets it: with a non-nil seed [C], if in a state
    reached by concurrent calls goroutine [j] is between [Lock] and
    [Unlock] and the slot holds [C], then however the goroutines move on,
    once the call of [j] is back it has returned [C] and a nil error. *)
Theorem first_locker_wins (C : net.Conn) ncalls n σ j p m σ' r :
  C ≠ net.Nil →
  nsteps sched_step n (start ncalls C) σ →
  calls σ !! j = Some p →
  holds p = true →
  conn (dialer σ) = C →
  nsteps sched_step m σ σ' →
  calls σ' !! j = Some (Returned r) →
  r = (C, nil_error).
Proof.
  intros HC (owner & w & Hinv)%reach_inv Hj Hp Hconn Hsteps Hr.
  assert (ahead C j σ) as Hahead.
  { left. split; [done|].
    destruct (inv_threads _ _ _ _ Hinv j p Hj) as [_ Hpj].
    destruct p as [| | |r0|r0]; try done; auto.
    destruct Hpj as [_ Hw]. rewrite (inv_conn _ _ _ _ Hinv) in Hconn.
    destruct w; [by destruct HC|by destruct HC; apply Hw]. }
  destruct (ahead_nsteps _ _ _ _ _ _ _ HC Hinv Hahead Hsteps)
    as [[_ [Hj'|Hj']]|[Hj'|Hj']]; congruence.
Qed.

Lemma first_locker_wins_witness :
  net.Obj 7 ≠ net.Nil ∧
  nsteps sched_step 1 (start 2 (net.Obj 7))
    (run_schedule [1] (start 2 (net.Obj 7))) ∧
  calls (run_schedule [1] (start 2 (net.Obj 7))) !! 1 = Some AtCheck ∧
  holds AtCheck = true ∧
  conn (dialer (run_schedule [1] (start 2 (net.Obj 7)))) = net.Obj 7 ∧
  nsteps sched_step 6 (run_schedule [1] (start 2 (net.Obj 7)))
    (run_schedule [1; 1; 1; 1; 0; 0; 0] (start 2 (net.Obj 7))) ∧
  calls (run_schedule [1; 1; 1; 1; 0; 0; 0] (start 2 (net.Obj 7))) !! 1
  = Some (Returned (net.Obj 7, nil_error)) ∧
  (net.Obj 7, nil_error) = (net.Obj 7, nil_error).
Proof.
  assert (nsteps sched_step 1 (start 2 (net.Obj 7))
            (run_schedule [1] (start 2 (net.Obj 7)))) as Hrun.
  { eapply nsteps_l; [by exists 1|]. apply nsteps_O. }
  assert (nsteps sched_step 6 (run_schedule [1] (start 2 (net.Obj 7)))
            (run_schedule [1; 1; 1; 1; 0; 0; 0] (start 2 (net.Obj 7)))) as Hrun'.
  { do 3 (eapply nsteps_l; [by exists 1|]).
    do 3 (eapply nsteps_l; [by exists 0|]). apply nsteps_O. }
  split; [discriminate|]. split; [exact Hrun|]. split; [reflexivity|].
  split; [reflexivity|]. split; [reflexivity|]. split; [exact Hrun'|].
  split; [reflexivity|].
  apply (first_locker_wins (net.Obj 7) 2 1
           (run_schedule [1] (start 2 (net.Obj 7))) 1 AtCheck 6
           (run_schedule [1; 1; 1; 1; 0; 0; 0] (start 2 (net.Obj 7))));
    [discriminate|exact Hrun|reflexivity|reflexivity|reflexivity|exact Hrun'
    |reflexivity].
Defined.

(** *** A fair scheduler *)

Lemma run_schedule_cons i sched σ :
  run_schedule (i :: sched) σ = run_schedule sched (default σ (step i σ)).
Proof. reflexivity. Qed.

Lemma run_schedule_app sched1 sched2 σ :
  run_schedule (sched1 ++ sched2) σ
  = run_schedule sched2 (run_schedule sched1 σ).
Proof. apply foldl_app. Qed.

Lemma run_schedule_remaining sched σ :
  remaining (run_schedule sched σ) ≤ remaining σ.
Proof.
  revert σ. induction sched as [|i sched IH]; intros σ; [done|].
  rewrite run_schedule_cons. etrans; [apply IH|].
  destruct (step i σ) as [σ'|] eqn:Hi; cbn; [|done].
  apply step_remaining in Hi. lia.
Qed.

(** A round in which some goroutine could move does not leave things as
    they were. *)
Lemma round_progress sched σ i :
  i ∈ sched → is_Some (step i σ) →
  remaining (run_schedule sched σ) < remaining σ.
Proof.
  revert σ. induction sched as [|i0 sched IH]; intros σ Hin Hsome.
  - by apply elem_of_nil in Hin.
  - rewrite run_schedule_cons.
    destruct (step i0 σ) as [σ'|] eqn:Hi0; cbn.
    + pose proof (run_schedule_remaining sched σ').
      apply step_remaining in Hi0. lia.
    + apply IH; [|done]. apply elem_of_cons in Hin as [->|Hin]; [|done].
      rewrite Hi0 in Hsome. by destruct Hsome.
Qed.

Lemma returned_remaining (ps : list pc) :
  Forall (λ p, is_Some (returned p)) ps ↔ sum_list_with weight ps = 0.
Proof.
  induction ps as [|p ps IH]; [done|].
  rewrite Forall_cons, IH. cbn [sum_list_with].
  destruct p as [| | |r|r]; cbn;
    (split; [intros [[r' Hr'] Hs]|intros Hs]);
    try done; try lia.
Qed.

Lemma run_schedule_inv c owner w sched σ :
  inv c owner w σ →
  (∃ owner' w', inv c owner' w' (run_schedule sched σ)) ∧
  length (calls (run_schedule sched σ)) = length (calls σ).
Proof.
  intros Hinv. destruct (run_schedule_nsteps sched σ) as (n & _ & Hsteps).
  split; [by eapply inv_nsteps|by eapply nsteps_length].
Qed.

Lemma round_robin_rounds c rounds :
  ∀ owner w σ,
    inv c owner w σ →
    is_Some (results (run_schedule (round_robin (length (calls σ)) rounds) σ)) ∨
    remaining (run_schedule (round_robin (length (calls σ)) rounds) σ) + rounds
    ≤ remaining σ.
Proof.
  induction rounds as [|rounds IH]; intros owner w σ Hinv; [right; cbn; lia|].
  unfold round_robin. cbn [replicate concat]. rewrite run_schedule_app.
  fold (round_robin (length (calls σ)) rounds).
  destruct (run_schedule_inv _ _ _ (seq 0 (length (calls σ))) _ Hinv)
    as [(owner' & w' & Hinv') Hlen].
  pose proof (IH _ _ _ Hinv') as Hih. rewrite Hlen in Hih.
  destruct Hih as [Hback|Hrem]; [by left|].
  destruct (inv_progress _ _ _ _ Hinv) as [(i & σ' & Hi)|Hall].
  - right.
    assert (i ∈ seq 0 (length (calls σ))) as Hin.
    { apply elem_of_seq. split; [lia|]. cbn.
      unfold step in Hi. destruct (calls σ !! i) as [p|] eqn:Hp; [|done].
      by eapply lookup_lt_Some. }
    pose proof (round_progress _ σ i Hin (mk_is_Some _ _ Hi)). lia.
  - left. apply mapM_is_Some, returned_remaining.
    apply returned_remaining in Hall. fold (remaining σ) in Hall.
    match goal with |- sum_list_with weight (calls ?s) = 0 =>
      fold (remaining s) end.
    pose proof (run_schedule_remaining (seq 0 (length (calls σ))) σ). lia.
Qed.

(** X10 (fair scheduling). Nobody hangs under a fair scheduler: when the
    goroutines are given
    their turns round-robin, a goroutine blocked in [Lock] losing its
    turn, after [4 * ncalls] rounds all the [ncalls] calls on a fresh
    dialer are back, whatever the seed. *)
Theorem round_robin_completes c ncalls :
  ∃ rs,
    results (run_schedule (round_robin ncalls (4 * ncalls)) (start ncalls c))
    = Some rs ∧
    length rs = ncalls.
Proof.
  pose proof (round_robin_rounds c (4 * ncalls) _ _ _ (inv_start ncalls c))
    as Hrounds.
  destruct (run_schedule_inv _ _ _ (round_robin ncalls (4 * ncalls)) _
              (inv_start ncalls c)) as [_ Hlen].
  cbn [start calls] in Hrounds, Hlen. rewrite length_replicate in Hrounds, Hlen.
  assert (is_Some (results (run_schedule (round_robin ncalls (4 * ncalls))
                              (start ncalls c)))) as [rs Hrs].
  { destruct Hrounds as [Hback|Hrem]; [done|].
    rewrite remaining_start in Hrem.
    apply mapM_is_Some, returned_remaining.
    match goal with |- sum_list_with weight (calls ?s) = 0 =>
      fold (remaining s) end.
    lia. }
  exists rs. split; [done|].
  apply mapM_Some, Forall2_length in Hrs. by rewrite <- Hrs.
Qed.
